(** * hyogwa: the effect-handling core ([src/core.ts])

    A shallow embedding of the runtime part of [core.ts]: Actions,
    effectful computations (JavaScript generators), the action creators
    built by [createEffect], the handle tactics and the dispatch loop
    [_handle] with its front end [handle].

    Generators.  The source documents an effectful computation as a
    generator that "may yield arbitrary number of actions" and "must
    return computation result".  A generator body is therefore embedded
    as a well-founded tree: it returns, raises, or yields an Action and
    waits for the value passed to the next call of [next].  A generator
    object is such a body together with the point it has reached; see
    [Generator] and [next]. *)

From Stdlib Require Import ZArith String List.
From stdpp Require Import base option gmap strings.

#[local] Set Warnings "-register-all".

(** ** JavaScript values and Actions *)

(** The values that flow through the core.  An Action is the object
    literal of [createEffect]; [parameters] is [None] when the literal has
    no such property (reading it gives [undefined]). *)
Inductive value : Type :=
| VUndefined
| VBoolean (b : bool)
| VNumber (n : Z)
| VString (s : string)
| VArray (elements : list value)
| VAction (effectName constructorName : string)
          (parameters : option (list value)).

Record Action : Type := mkAction {
  effectName : string;
  constructorName : string;
  parameters : option (list value)
}.

Definition Action_value (a : Action) : value :=
  VAction (effectName a) (constructorName a) (parameters a).

(** What a generator can raise. *)
Inductive exn : Type :=
| HandleError (message : string)
| TypeError
| Thrown (v : value).

(** ** Effectful computations *)

(** The body of a generator, from the point it has reached. *)
Inductive Effectful : Type :=
| Return (result : value)
| Throw (e : exn)
| Yield (action : Action) (computation : value -> Effectful).

(** A generator object: what its body does with the argument of the next
    call of [next].  A fresh generator ignores that argument; a finished
    one keeps answering [{done: true, value: undefined}]. *)
Definition Generator : Type := value -> Effectful.

Definition fresh (body : Effectful) : Generator := fun _ => body.
Definition finished : Generator := fun _ => Return VUndefined.

Inductive IteratorResult : Type :=
| suspended (action : Action)      (* {done: false, value: action} *)
| completed (result : value).      (* {done: true, value: result} *)

Definition next (g : Generator) (x : value)
  : (exn + IteratorResult) * Generator :=
  match g x with
  | Yield action computation => (inr (suspended action), computation)
  | Return result => (inr (completed result), finished)
  | Throw e => (inl e, finished)
  end.

(** Driving a computation as its consumer does: every suspension is
    answered with the next value of [answers]. *)
Inductive outcome : Type :=
| Completed (result : value)
| Raised (e : exn)
| Pending.                          (* suspended, no answer left *)

Fixpoint observe (c : Effectful) (answers : list value)
  : list Action * outcome :=
  match c with
  | Return result => ([], Completed result)
  | Throw e => ([], Raised e)
  | Yield action computation =>
      match answers with
      | [] => ([action], Pending)
      | x :: answers' =>
          let (trace, o) := observe (computation x) answers' in
          (action :: trace, o)
      end
  end.

(** Observable equality of two computations: the same suspensions, the
    same routing of resumption values, the same completion. *)
Inductive equiv : Effectful -> Effectful -> Prop :=
| equiv_Return result : equiv (Return result) (Return result)
| equiv_Throw e : equiv (Throw e) (Throw e)
| equiv_Yield action k1 k2 :
    (forall x, equiv (k1 x) (k2 x)) ->
    equiv (Yield action k1) (Yield action k2).

(** ** createEffect (core.ts 83-104) *)

(** The function [result] returned by the proxy's [get] trap: calling it
    gives the generator of the operation-shaped action, its
    [Symbol.iterator] method the generator of the value-shaped one. *)
Record ActionCreator : Type := mkActionCreator {
  call : list value -> Effectful;
  iterator : Effectful
}.

Definition createEffect (effectName : string) (constructorName : string)
  : ActionCreator :=
  {| call := fun parameters =>
       Yield (mkAction effectName constructorName (Some parameters))
             (fun x => Return x);
     iterator :=
       Yield (mkAction effectName constructorName None)
             (fun x => Return x) |}.

(** ** HandleError (core.ts 179-185) *)

Definition newline : string := String (Ascii.ascii_of_nat 10) EmptyString.

(** [String.prototype.trim], for strings of ASCII text: the white space
    and line terminators are tab, line feed, vertical tab, form feed,
    carriage return and space. *)
Definition is_white_space (c : Ascii.ascii) : bool :=
  let n := Ascii.nat_of_ascii c in
  (Nat.leb 9 n && Nat.leb n 13) || Nat.eqb n 32.

Fixpoint trim_start (s : string) : string :=
  match s with
  | String c s' => if is_white_space c then trim_start s' else s
  | EmptyString => EmptyString
  end.

Fixpoint trim_end (s : string) : string :=
  match s with
  | String c s' =>
      match trim_end s' with
      | EmptyString => if is_white_space c then EmptyString
                       else String c EmptyString
      | t => String c t
      end
  | EmptyString => EmptyString
  end.

Definition trim (s : string) : string := trim_start (trim_end s).

(** The template literal of the constructor, trimmed. *)
Definition HandleError_message (effectName constructorName reason : string)
  : string :=
  trim (newline +:+ "      Fail to handle action '" +:+ effectName +:+ "."
          +:+ constructorName +:+ "'" +:+ newline +:+ reason +:+ newline
          +:+ "    ").

(** [new HandleError(action, reason)] for whatever value [action] is: a
    property read on [undefined] raises, on another non-Action value it
    gives [undefined]. *)
Definition new_HandleError (action : value) (reason : string) : exn :=
  match action with
  | VAction effectName constructorName _ =>
      HandleError (HandleError_message effectName constructorName reason)
  | VUndefined => TypeError
  | _ => HandleError (HandleError_message "undefined" "undefined" reason)
  end.

Definition more_than_once : string :=
  "cannot call handle tactics more than once".
Definition must_call : string :=
  "Effect handlers must call handle tactics".

(** ** Handler tables *)

Inductive Tactic : Type :=
| call_resume (v : value)
| call_abort (v : value).

(** The generator a handler may return.  Its body closes over the
    tactics, so besides yielding it may call them.  A handler uses the
    tactics it is given while it runs, or while the generator it
    returned runs; it does not keep them for later, and it does not
    catch what they raise. *)
Inductive Nested : Type :=
| NReturn (result : value)
| NThrow (e : exn)
| NYield (action : Action) (k : value -> Nested)
| NTactic (t : Tactic) (k : Nested).

(** One call of a handler function: the tactics it calls before it
    returns, and the value it returns ([None]: nothing iterable). *)
Record HandlerResult : Type := mkHandlerResult {
  tactic_calls : list Tactic;
  maybeComputation : option Nested
}.

Inductive HandlerEntry : Type :=
| EValue (v : value)                               (* typeof !== 'function' *)
| EFunction (f : list value -> HandlerResult).

(** A handler table is a JavaScript object whose properties are objects:
    besides the entries written in it ([own]), the [in] operator and the
    property read of line 200-210 find what the table, or the object
    bound to an effect name, inherits through its prototype chain.  What
    is inherited depends on the runtime and on how the table was made; it
    is a component of the table: [inherited e c] is the value found for
    [handlers[e][c]] when [own] has none ([None]: the [in] test
    fails). *)
Record Handlers : Type := mkHandlers {
  own : gmap string (gmap string HandlerEntry);
  inherited : string -> string -> option HandlerEntry
}.

(** A table and operation objects without prototype. *)
Definition plain (entries : gmap string (gmap string HandlerEntry))
  : Handlers :=
  mkHandlers entries (fun _ _ => None).

(** The entry written in the table for the Action, if any. *)
Definition own_entry (handlers : Handlers) (action : Action)
  : option HandlerEntry :=
  match own handlers !! effectName action with
  | Some operations => operations !! constructorName action
  | None => None
  end.

(** [action.effectName in handlers &&
     action.constructorName in handlers[action.effectName]], with the
    value of [handlers[action.effectName][action.constructorName]]: an
    own entry, or else an inherited one. *)
Definition lookup_handler (handlers : Handlers) (action : Action)
  : option HandlerEntry :=
  match own_entry handlers action with
  | Some entry => Some entry
  | None => inherited handlers (effectName action) (constructorName action)
  end.

(** ** Handle tactics (core.ts 213-228) *)

(** The variables of [_handle] that the tactics close over.  While one
    Action is handled, [thrown] is either still the suspension that
    carries that Action or [computation.next(v)] for the [v] given to
    [resume]; [resumed] records which ([None]: untouched), and the loop
    reads the suspension or [computation v] back from it. *)
Record locals : Type := mkLocals {
  resumed : option value;
  isPreviousEffectResolved : bool;
  aborted : bool;
  abortedValue : value
}.

Definition resume (action : Action) (computation : Generator) (v : value)
  (st : locals) : exn + locals :=
  if isPreviousEffectResolved st
  then inl (new_HandleError (Action_value action) more_than_once)
  else
    match computation v with               (* thrown = computation.next(value) *)
    | Throw e => inl e
    | _ => inr {| resumed := Some v;
                  isPreviousEffectResolved := true;
                  aborted := aborted st;
                  abortedValue := abortedValue st |}
    end.

Definition abort (action : Action) (v : value) (st : locals)
  : exn + locals :=
  if isPreviousEffectResolved st
  then inl (new_HandleError (Action_value action) more_than_once)
  else inr {| resumed := resumed st;
              abortedValue := v;
              isPreviousEffectResolved := true;
              aborted := true |}.

Definition invoke (action : Action) (computation : Generator) (t : Tactic)
  (st : locals) : exn + locals :=
  match t with
  | call_resume v => resume action computation v st
  | call_abort v => abort action v st
  end.

(** The tactic calls a handler function makes before it returns; the
    first one that raises ends the call. *)
Fixpoint invoke_all (action : Action) (computation : Generator)
  (calls : list Tactic) (st : locals) : exn + locals :=
  match calls with
  | [] => inr st
  | t :: calls' =>
      match invoke action computation t st with
      | inl e => inl e
      | inr st' => invoke_all action computation calls' st'
      end
  end.

(** ** The dispatch loop (core.ts 187-246) *)

(** [yield* maybeComputation]: every Action of the nested generator is
    yielded to the consumer of [_handle] and the consumer's answer is
    sent back to the nested generator; its result is dropped and
    [_handle] goes on with [rest]. *)
Fixpoint yield_star (action : Action) (computation : Generator)
  (nested : Nested) (st : locals) (rest : locals -> Effectful) : Effectful :=
  match nested with
  | NReturn _ => rest st
  | NThrow e => Throw e
  | NYield a k =>
      Yield a (fun x => yield_star action computation (k x) st rest)
  | NTactic t k =>
      match invoke action computation t st with
      | inl e => Throw e
      | inr st' => yield_star action computation k st' rest
      end
  end.

(** [thrown.value] *)
Definition IteratorResult_value (thrown : Effectful) : value :=
  match thrown with
  | Return result => result
  | Yield action _ => Action_value action
  | Throw _ => VUndefined
  end.

(** Lines 242-245, after the loop. *)
Definition after_loop (thrown : Effectful)
  (isPreviousEffectResolved aborted : bool) (abortedValue : value)
  : Effectful :=
  if negb isPreviousEffectResolved
  then Throw (new_HandleError (IteratorResult_value thrown) must_call)
  else Return (if aborted then abortedValue else IteratorResult_value thrown).

(** The [while] loop at its head, with the current values of the four
    variables; [thrown] also stands for [computation], which is suspended
    right after producing it.  A call of [computation.next] that raises
    ends the generator of [_handle] with that exception.  After a handler
    function that has left [thrown] untouched the condition of the loop
    is false (lemma [back_to_loop_head]) and the loop is left. *)
Fixpoint _handle_loop (handlers : Handlers) (thrown : Effectful)
  (isPreviousEffectResolved aborted : bool) (abortedValue : value)
  {struct thrown} : Effectful :=
  match thrown with
  | Throw e => Throw e
  | Return _ =>
      after_loop thrown isPreviousEffectResolved aborted abortedValue
  | Yield action computation =>
      if isPreviousEffectResolved && negb aborted then
        match lookup_handler handlers action with
        | Some (EValue v) =>
            _handle_loop handlers (computation v) true aborted abortedValue
        | Some (EFunction f) =>
            match parameters action with
            | None => Throw TypeError      (* ...action.parameters *)
            | Some ps =>
                (* back at the head of the loop, with the variables as
                   the handler left them *)
                let rest '(mkLocals resumed resolved aborted' value') :=
                  match resumed with
                  | Some v =>
                      _handle_loop handlers (computation v)
                        resolved aborted' value'
                  | None => after_loop thrown resolved aborted' value'
                  end in
                match invoke_all action computation (tactic_calls (f ps))
                        (mkLocals None false aborted abortedValue) with
                | inl e => Throw e
                | inr st =>
                    match maybeComputation (f ps) with
                    | Some nested =>
                        yield_star action computation nested st rest
                    | None => rest st
                    end
                end
            end
        | None =>
            Yield action (fun x =>
              _handle_loop handlers (computation x) true aborted abortedValue)
        end
      else after_loop thrown isPreviousEffectResolved aborted abortedValue
  end.

Definition _handle (computation : Effectful) (handlers : Handlers)
  : Effectful :=
  _handle_loop handlers computation true false VUndefined.

(** ** handle (core.ts 256-267) *)

(** What the three overloads accept as [first] and [second]. *)
Inductive argument : Type :=
| generator (computation : Effectful)         (* a generator object *)
| table (handlers : Handlers)                 (* a handler table *)
| producer (f : unit -> Effectful).           (* () => generator *)

(** [Symbol.iterator in x] *)
Definition has_iterator (x : argument) : bool :=
  match x with generator _ => true | _ => false end.

(** [typeof x === 'function'] *)
Definition is_function (x : argument) : bool :=
  match x with producer _ => true | _ => false end.

(** [None]: the pair of arguments fits none of the declared overloads. *)
Definition handle (first second : argument) : option Effectful :=
  if has_iterator first then
    match first, second with
    | generator computation, table handlers =>
        Some (_handle computation handlers)
    | _, _ => None
    end
  else if is_function second then
    match second, first with
    | producer f, table handlers => Some (_handle (f tt) handlers)
    | _, _ => None
    end
  else
    match second, first with
    | generator computation, table handlers =>
        Some (_handle computation handlers)
    | _, _ => None
    end.

(** ** Reading the loop *)

(** The head of the loop as a handler function leaves it: the closure
    [rest] of [_handle_loop]. *)
Definition back_to_loop (handlers : Handlers) (action : Action)
  (computation : Generator) (st : locals) : Effectful :=
  let '(mkLocals resumed resolved aborted' value') := st in
  match resumed with
  | Some v => _handle_loop handlers (computation v) resolved aborted' value'
  | None => after_loop (Yield action computation) resolved aborted' value'
  end.

(** One call of a handler function and what follows it (lines 210-233). *)
Definition run_handler (handlers : Handlers) (action : Action)
  (computation : Generator) (r : HandlerResult) (abortedValue : value)
  : Effectful :=
  match invoke_all action computation (tactic_calls r)
          (mkLocals None false false abortedValue) with
  | inl e => Throw e
  | inr st =>
      match maybeComputation r with
      | Some nested =>
          yield_star action computation nested st
            (back_to_loop handlers action computation)
      | None => back_to_loop handlers action computation st
      end
  end.

(** A nested generator driven on its own: the Actions it yields when its
    suspensions are answered from [answers], the tactics it calls on the
    way, how it ends, and the answers it has not read. *)
Record Play : Type := mkPlay {
  yielded : list Action;
  called : list Tactic;
  ended : outcome;
  unread : list value
}.

Fixpoint play (nested : Nested) (answers : list value) : Play :=
  match nested with
  | NReturn result => mkPlay [] [] (Completed result) answers
  | NThrow e => mkPlay [] [] (Raised e) answers
  | NYield a k =>
      match answers with
      | [] => mkPlay [a] [] Pending []
      | x :: answers' =>
          let p := play (k x) answers' in
          mkPlay (a :: yielded p) (called p) (ended p) (unread p)
      end
  | NTactic t k =>
      let p := play k answers in
      mkPlay (yielded p) (t :: called p) (ended p) (unread p)
  end.

(** The same for a whole call of a handler function. *)
Definition play_handler (r : HandlerResult) (answers : list value) : Play :=
  match maybeComputation r with
  | Some nested =>
      let p := play nested answers in
      mkPlay (yielded p) (tactic_calls r ++ called p) (ended p) (unread p)
  | None => mkPlay [] (tactic_calls r) (Completed VUndefined) answers
  end.


(** The variables as the tactics can leave them, starting from the
    values set at the top of an iteration: [resume] has run, or [abort]
    has, or neither. *)
Definition consistent (st : locals) : Prop :=
  match resumed st with
  | Some _ => isPreviousEffectResolved st = true /\ aborted st = false
  | None => aborted st = isPreviousEffectResolved st
  end.

(** [thrown], read back from the variables. *)
Definition thrown_of (action : Action) (computation : Generator)
  (st : locals) : Effectful :=
  match resumed st with
  | Some v => computation v
  | None => Yield action computation
  end.

(** [yield* c] inside a generator body, followed by the rest of the body,
    which receives the result of [c]. *)
Fixpoint bind (c : Effectful) (k : value -> Effectful) : Effectful :=
  match c with
  | Return result => k result
  | Throw e => Throw e
  | Yield action computation => Yield action (fun x => bind (computation x) k)
  end.

(** A nested generator in which every call of a tactic is replaced by the
    [throw] of the double-invocation error for [action]. *)
Fixpoint rejecting (action : Action) (nested : Nested) : Nested :=
  match nested with
  | NReturn result => NReturn result
  | NThrow e => NThrow e
  | NYield a k => NYield a (fun x => rejecting action (k x))
  | NTactic _ _ =>
      NThrow (HandleError (HandleError_message (effectName action)
                (constructorName action) more_than_once))
  end.

(** A computation for none of whose Actions an entry is found. *)
Inductive unhandled (handlers : Handlers) : Effectful -> Prop :=
| unhandled_Return result : unhandled handlers (Return result)
| unhandled_Throw e : unhandled handlers (Throw e)
| unhandled_Yield action computation :
    lookup_handler handlers action = None ->
    (forall x, unhandled handlers (computation x)) ->
    unhandled handlers (Yield action computation).

(** ** Two handler tables *)

(** The table with the entries of both, effect by effect and operation by
    operation (where both have an entry, the one of [A]); it inherits
    what [A] inherits, or else what [B] does. *)
Definition merge (A B : Handlers) : Handlers :=
  mkHandlers
    (union_with
       (fun operationsA operationsB => Some (operationsA ∪ operationsB))
       (own A) (own B))
    (fun e c =>
       match inherited A e c with
       | Some entry => Some entry
       | None => inherited B e c
       end).

(** [U] finds for every Action what [A] finds, or else what [B] finds. *)
Definition union_of (U A B : Handlers) : Prop :=
  forall action,
    lookup_handler U action =
    match lookup_handler A action with
    | Some entry => Some entry
    | None => lookup_handler B action
    end.

(** No (effect name, operation name) has an entry written in both. *)
Definition disjoint_keys (A B : Handlers) : Prop :=
  forall action,
    own_entry A action = None \/ own_entry B action = None.

(** Every Action of the computation has an entry. *)
Inductive covered (handlers : Handlers) : Effectful -> Prop :=
| covered_Return result : covered handlers (Return result)
| covered_Throw e : covered handlers (Throw e)
| covered_Yield action computation :
    lookup_handler handlers action <> None ->
    (forall x, covered handlers (computation x)) ->
    covered handlers (Yield action computation).

(** One call of a handler function as a single script: the calls it
    makes before it returns, then the generator it returns. *)
Definition script (r : HandlerResult) : Nested :=
  fold_right NTactic
    (match maybeComputation r with
     | Some nested => nested
     | None => NReturn VUndefined
     end)
    (tactic_calls r).

(** No Action the script yields has an entry in [handlers]. *)
Inductive avoids (handlers : Handlers) : Nested -> Prop :=
| avoids_NReturn result : avoids handlers (NReturn result)
| avoids_NThrow e : avoids handlers (NThrow e)
| avoids_NYield action k :
    lookup_handler handlers action = None ->
    (forall x, avoids handlers (k x)) ->
    avoids handlers (NYield action k)
| avoids_NTactic t k :
    avoids handlers k -> avoids handlers (NTactic t k).

(** A call of [resume] is the last thing the script does before it
    returns. *)
Inductive resume_last : Nested -> Prop :=
| resume_last_NReturn result : resume_last (NReturn result)
| resume_last_NThrow e : resume_last (NThrow e)
| resume_last_NYield action k :
    (forall x, resume_last (k x)) -> resume_last (NYield action k)
| resume_last_abort v k :
    resume_last k -> resume_last (NTactic (call_abort v) k)
| resume_last_resume v result :
    resume_last (NTactic (call_resume v) (NReturn result)).

(** The handler functions of [A] perform no Action that [B] handles. *)
Definition performs_outside (A B : Handlers) : Prop :=
  forall action f ps,
    lookup_handler A action = Some (EFunction f) ->
    avoids B (script (f ps)).

(** The handler functions of [B] resume last. *)
Definition resumes_last (B : Handlers) : Prop :=
  forall action f ps,
    lookup_handler B action = Some (EFunction f) ->
    resume_last (script (f ps)).

(** Two states of the variables that the loop cannot tell apart. *)
Definition alike (st st' : locals) : Prop :=
  resumed st = resumed st' /\
  isPreviousEffectResolved st = isPreviousEffectResolved st' /\
  aborted st = aborted st' /\
  (aborted st = true -> abortedValue st = abortedValue st').

(** ** Sample effects, computations and handler tables *)

Definition Console : string -> ActionCreator := createEffect "Console".
Definition State : string -> ActionCreator := createEffect "State".

(** Read a line, write it back, complete with it. *)
Definition echo : Effectful :=
  bind (call (Console "readLine") [])
    (fun line => bind (call (Console "writeLine") [line])
       (fun _ => Return line)).

(** [readLine] resumes with ["hi"], [writeLine] with [undefined]. *)
Definition console_handlers : Handlers :=
  plain {[ "Console" :=
       {[ "readLine" :=
            EFunction (fun _ =>
              mkHandlerResult [call_resume (VString "hi")] None);
          "writeLine" :=
            EFunction (fun _ =>
              mkHandlerResult [call_resume VUndefined] None) ]} ]}.

Definition State_get : Action := mkAction "State" "get" (Some []).
Definition Console_readLine : Action := mkAction "Console" "readLine" (Some []).

(** A handler function that returns without calling a tactic, after its
    generator has performed [State.get]. *)
Definition silent : list value -> HandlerResult := fun _ =>
  mkHandlerResult [] (Some (NYield State_get (fun _ => NReturn VUndefined))).
Definition silent_handlers : Handlers :=
  plain {[ "Console" := {[ "readLine" := EFunction silent ]} ]}.

(** A handler function that aborts with 7 and returns a generator that
    performs [State.get]. *)
Definition aborting : list value -> HandlerResult := fun _ =>
  mkHandlerResult [call_abort (VNumber 7)]
    (Some (NYield State_get (fun _ => NReturn VUndefined))).
Definition aborting_handlers : Handlers :=
  plain {[ "Console" := {[ "readLine" := EFunction aborting ]} ]}.

(** A handler function whose generator performs [State.get] and resumes
    with the answer. *)
Definition asking : list value -> HandlerResult := fun _ =>
  mkHandlerResult []
    (Some (NYield State_get (fun x =>
             NTactic (call_resume x) (NReturn VUndefined)))).
Definition asking_handlers : Handlers :=
  plain {[ "Console" := {[ "readLine" := EFunction asking ]} ]}.

(** A handler function that aborts twice. *)
Definition twice : list value -> HandlerResult := fun _ =>
  mkHandlerResult [call_abort (VNumber 1); call_abort (VNumber 2)] None.
Definition twice_handlers : Handlers :=
  plain {[ "Console" := {[ "readLine" := EFunction twice ]} ]}.


(** [Console.readLine], nothing more. *)
Definition read : Effectful := call (Console "readLine") [].

(** [State.get] resumes with 42. *)
Definition answering : list value -> HandlerResult := fun _ =>
  mkHandlerResult [call_resume (VNumber 42)] None.
Definition answering_handlers : Handlers :=
  plain {[ "State" := {[ "get" := EFunction answering ]} ]}.

(** Get the state, write it, complete with it. *)
Definition session : Effectful :=
  bind (call (State "get") [])
    (fun n => bind (call (Console "writeLine") [n]) (fun _ => Return n)).

Definition Trace_note : Action := mkAction "Trace" "note" (Some []).

(** [Console.log] returns without calling a tactic. *)
Definition mute : list value -> HandlerResult := fun _ =>
  mkHandlerResult [] None.
Definition mute_handlers : Handlers :=
  plain {[ "Console" := {[ "log" := EFunction mute ]} ]}.

(** [State.get] resumes with 1 and then performs [Trace.note]. *)
Definition noting : list value -> HandlerResult := fun _ =>
  mkHandlerResult [call_resume (VNumber 1)]
    (Some (NYield Trace_note (fun _ => NReturn VUndefined))).
Definition noting_handlers : Handlers :=
  plain {[ "State" := {[ "get" := EFunction noting ]} ]}.

(** Get the state, then log. *)
Definition get_then_log : Effectful :=
  bind (call (State "get") []) (fun _ => call (Console "log") []).

(** A table without entries of its own that inherits [constructor], whose
    [name] is the string "Object", as a table written [{}] does; what
    else such a table inherits is left out. *)
Definition bare_handlers : Handlers :=
  mkHandlers ∅ (fun e c =>
    if String.eqb e "constructor" && String.eqb c "name"
    then Some (EValue (VString "Object")) else None).

Definition constructor_name : Action :=
  mkAction "constructor" "name" (Some []).

(** A computation that raises when it is advanced after its first
    Action. *)
Definition failing : Effectful :=
  Yield Console_readLine (fun _ => Throw (Thrown (VString "boom"))).

(** ** Further notions about computations and tables *)

(** An exception the computation may raise by itself, for some answers. *)
Inductive may_raise : Effectful -> exn -> Prop :=
| may_raise_Throw e : may_raise (Throw e) e
| may_raise_Yield action computation x e :
    may_raise (computation x) e ->
    may_raise (Yield action computation) e.

(** Every handler function calls one tactic and returns nothing to
    drive. *)
Definition direct (handlers : Handlers) : Prop :=
  forall action f ps,
    lookup_handler handlers action = Some (EFunction f) ->
    maybeComputation (f ps) = None /\ exists t, tactic_calls (f ps) = [t].

(** Every Action of the computation has an entry, and carries a
    parameter list where that entry is a function. *)
Inductive dischargeable (handlers : Handlers) : Effectful -> Prop :=
| dischargeable_Return result : dischargeable handlers (Return result)
| dischargeable_Throw e : dischargeable handlers (Throw e)
| dischargeable_Yield action computation :
    lookup_handler handlers action <> None ->
    (forall f, lookup_handler handlers action = Some (EFunction f) ->
               parameters action <> None) ->
    (forall x, dischargeable handlers (computation x)) ->
    dischargeable handlers (Yield action computation).

(** An effect whose table of operations is empty. *)
Definition hollow_handlers : Handlers := plain {[ "Console" := ∅ ]}.

(** [Console.width] is the plain value 80. *)
Definition width_handlers : Handlers :=
  plain {[ "Console" := {[ "width" := EValue (VNumber 80) ]} ]}.

(** [Console.width] is a function. *)
Definition width_function_handlers : Handlers :=
  plain {[ "Console" := {[ "width" := EFunction answering ]} ]}.

(** A handler function whose generator performs the very Action it
    handles, and resumes with the answer. *)
Definition recursing : list value -> HandlerResult := fun _ =>
  mkHandlerResult []
    (Some (NYield Console_readLine (fun x =>
             NTactic (call_resume x) (NReturn VUndefined)))).
Definition recursing_handlers : Handlers :=
  plain {[ "Console" := {[ "readLine" := EFunction recursing ]} ]}.

(** A handler script that never aborts and returns right after it has
    resumed. *)
Inductive resumptive : Nested -> Prop :=
| resumptive_NReturn result : resumptive (NReturn result)
| resumptive_NThrow e : resumptive (NThrow e)
| resumptive_NYield action k :
    (forall x, resumptive (k x)) -> resumptive (NYield action k)
| resumptive_resume v result :
    resumptive (NTactic (call_resume v) (NReturn result)).

Definition resumptive_handlers (handlers : Handlers) : Prop :=
  forall action f ps,
    lookup_handler handlers action = Some (EFunction f) ->
    resumptive (script (f ps)).

(** [Console.width] is the plain value 100. *)
Definition wide_handlers : Handlers :=
  plain {[ "Console" := {[ "width" := EValue (VNumber 100) ]} ]}.

(** A table that finds exactly what [A] finds, or else what [B] finds. *)
Definition found_in_either (A B : Handlers) : Handlers :=
  mkHandlers ∅ (fun e c =>
    match lookup_handler A (mkAction e c None) with
    | Some entry => Some entry
    | None => lookup_handler B (mkAction e c None)
    end).
(** ** Unfolding the loop *)

Lemma _handle_loop_no_entry handlers action computation abortedValue :
  lookup_handler handlers action = None ->
  _handle_loop handlers (Yield action computation) true false abortedValue =
  Yield action (fun x =>
    _handle_loop handlers (computation x) true false abortedValue).
Proof. intros Hno. simpl. rewrite Hno. reflexivity. Qed.

Lemma _handle_loop_value handlers action computation abortedValue v :
  lookup_handler handlers action = Some (EValue v) ->
  _handle_loop handlers (Yield action computation) true false abortedValue =
  _handle_loop handlers (computation v) true false abortedValue.
Proof. intros Hv. simpl. rewrite Hv. reflexivity. Qed.

Lemma _handle_loop_function handlers action computation abortedValue f ps :
  lookup_handler handlers action = Some (EFunction f) ->
  parameters action = Some ps ->
  _handle_loop handlers (Yield action computation) true false abortedValue =
  run_handler handlers action computation (f ps) abortedValue.
Proof. intros Hf Hps. simpl. rewrite Hf, Hps. reflexivity. Qed.

Lemma _handle_loop_spread handlers action computation abortedValue f :
  lookup_handler handlers action = Some (EFunction f) ->
  parameters action = None ->
  _handle_loop handlers (Yield action computation) true false abortedValue =
  Throw TypeError.
Proof. intros Hf Hps. simpl. rewrite Hf, Hps. reflexivity. Qed.

Lemma _handle_loop_exit handlers action computation resolved aborted' v :
  resolved && negb aborted' = false ->
  _handle_loop handlers (Yield action computation) resolved aborted' v =
  after_loop (Yield action computation) resolved aborted' v.
Proof. intros Hc. simpl. rewrite Hc. reflexivity. Qed.

(** ** The tactics *)

Lemma invoke_resolved action computation t st :
  isPreviousEffectResolved st = true ->
  invoke action computation t st =
  inl (HandleError (HandleError_message (effectName action)
                      (constructorName action) more_than_once)).
Proof.
  intros Hr. destruct t; simpl; unfold resume, abort; rewrite Hr; reflexivity.
Qed.

Lemma invoke_abort_fresh action computation v st :
  isPreviousEffectResolved st = false ->
  invoke action computation (call_abort v) st =
  inr (mkLocals (resumed st) true true v).
Proof. intros Hr. simpl. unfold abort. rewrite Hr. reflexivity. Qed.

Lemma invoke_resume_fresh action computation v st :
  isPreviousEffectResolved st = false ->
  (forall e, computation v <> Throw e) ->
  invoke action computation (call_resume v) st =
  inr (mkLocals (Some v) true (aborted st) (abortedValue st)).
Proof.
  intros Hr Hne. simpl. unfold resume. rewrite Hr.
  destruct (computation v) eqn:E; try reflexivity.
  exfalso. exact (Hne _ eq_refl).
Qed.

Lemma invoke_consistent action computation t st st' :
  consistent st ->
  invoke action computation t st = inr st' ->
  consistent st'.
Proof.
  unfold consistent. intros Hc Hi.
  destruct (isPreviousEffectResolved st) eqn:Hr.
  - rewrite invoke_resolved in Hi by assumption. discriminate.
  - destruct t as [v|v]; simpl in Hi.
    + unfold resume in Hi. rewrite Hr in Hi.
      destruct (resumed st) as [w|]; [destruct Hc; congruence|].
      destruct (computation v); inversion Hi; subst; simpl; auto.
    + unfold abort in Hi. rewrite Hr in Hi. inversion Hi; subst; simpl.
      destruct (resumed st); [destruct Hc; congruence | reflexivity].
Qed.

Lemma invoke_all_consistent action computation calls : forall st st',
  consistent st ->
  invoke_all action computation calls st = inr st' ->
  consistent st'.
Proof.
  induction calls as [|t calls IH]; simpl; intros st st' Hc Hi.
  - congruence.
  - destruct (invoke action computation t st) as [e|st1] eqn:E; [discriminate|].
    eauto using invoke_consistent.
Qed.

Lemma invoke_all_app action computation calls1 : forall calls2 st,
  invoke_all action computation (calls1 ++ calls2) st =
  match invoke_all action computation calls1 st with
  | inl e => inl e
  | inr st' => invoke_all action computation calls2 st'
  end.
Proof.
  induction calls1 as [|t calls1 IH]; simpl; intros calls2 st; [reflexivity|].
  destruct (invoke action computation t st); [reflexivity | apply IH].
Qed.

(** Where the model leaves the loop although the source would test its
    condition again, the condition is false: a handler that has not
    resumed the computation has either aborted or resolved nothing. *)
Lemma back_to_loop_head handlers action computation st :
  consistent st ->
  back_to_loop handlers action computation st =
  _handle_loop handlers (thrown_of action computation st)
    (isPreviousEffectResolved st) (aborted st) (abortedValue st).
Proof.
  destruct st as [r i a v]. unfold consistent, thrown_of. simpl.
  destruct r as [w|]; [reflexivity|].
  intros ->. destruct i; reflexivity.
Qed.

(** After a handler that has resumed the computation the loop is at its
    head as at its start: flag set, not aborted. *)
Lemma back_to_loop_resumed handlers action computation st v :
  consistent st ->
  resumed st = Some v ->
  back_to_loop handlers action computation st =
  _handle_loop handlers (computation v) true false (abortedValue st).
Proof.
  destruct st as [r i a w]. unfold consistent. simpl.
  intros Hc ->. destruct Hc as [-> ->]. reflexivity.
Qed.

(** ** Observation *)

Lemma equiv_refl c : equiv c c.
Proof. induction c; constructor; auto. Qed.

Lemma equiv_sym c1 c2 : equiv c1 c2 -> equiv c2 c1.
Proof. induction 1; constructor; auto. Qed.

Lemma equiv_trans c1 c2 c3 : equiv c1 c2 -> equiv c2 c3 -> equiv c1 c3.
Proof.
  intros H. revert c3. induction H; intros c3 H3; inversion H3; subst;
    constructor; auto.
Qed.

Lemma equiv_observe c1 c2 :
  equiv c1 c2 -> forall answers, observe c1 answers = observe c2 answers.
Proof.
  induction 1 as [| |a k1 k2 _ IH]; intros answers; simpl; try reflexivity.
  destruct answers as [|x answers]; [reflexivity|]. rewrite IH. reflexivity.
Qed.

(** A nested generator that runs to its end under [yield*]: its Actions
    reach the consumer in order, the consumer's answers reach it, the
    tactics it calls act on the variables, and the loop goes on from the
    variables they leave, with the answers that remain. *)
Lemma yield_star_play action computation rest nested :
  forall answers st st' result,
  ended (play nested answers) = Completed result ->
  invoke_all action computation (called (play nested answers)) st = inr st' ->
  observe (yield_star action computation nested st rest) answers =
  (yielded (play nested answers) ++
     fst (observe (rest st') (unread (play nested answers))),
   snd (observe (rest st') (unread (play nested answers)))).
Proof.
  induction nested as [r|e|a k IH|t k IH]; intros answers st st' result He Hi;
    simpl in *.
  - inversion Hi; subst. destruct (observe (rest st') answers); reflexivity.
  - discriminate.
  - destruct answers as [|x answers]; simpl in *; [discriminate|].
    rewrite (IH x answers st st' result He Hi). reflexivity.
  - destruct (invoke action computation t st) as [e|st1]; [discriminate|].
    apply (IH answers st1 st' result He Hi).
Qed.

(** While the nested generator is still suspended, so is [_handle]. *)
Lemma yield_star_pending action computation rest nested :
  forall answers st st',
  ended (play nested answers) = Pending ->
  invoke_all action computation (called (play nested answers)) st = inr st' ->
  observe (yield_star action computation nested st rest) answers =
  (yielded (play nested answers), Pending).
Proof.
  induction nested as [r|e|a k IH|t k IH]; intros answers st st' He Hi;
    simpl in *; try discriminate.
  - destruct answers as [|x answers]; simpl in *; [reflexivity|].
    rewrite (IH x answers st st' He Hi). reflexivity.
  - destruct (invoke action computation t st) as [e|st1]; [discriminate|].
    apply (IH answers st1 st' He Hi).
Qed.

(** The same for a whole call of a handler function. *)
Lemma run_handler_play handlers action computation r abortedValue :
  forall answers st' result,
  ended (play_handler r answers) = Completed result ->
  invoke_all action computation (called (play_handler r answers))
    (mkLocals None false false abortedValue) = inr st' ->
  observe (run_handler handlers action computation r abortedValue) answers =
  (yielded (play_handler r answers) ++
     fst (observe (back_to_loop handlers action computation st')
            (unread (play_handler r answers))),
   snd (observe (back_to_loop handlers action computation st')
          (unread (play_handler r answers)))).
Proof.
  intros answers st' result. unfold play_handler, run_handler.
  destruct (maybeComputation r) as [nested|]; simpl.
  - intros He Hi. rewrite invoke_all_app in Hi.
    destruct (invoke_all action computation (tactic_calls r) _) as [e|st1];
      [discriminate|].
    eapply yield_star_play; eauto.
  - intros _ Hi. rewrite Hi.
    destruct (observe _ answers); reflexivity.
Qed.

(** ** The claims *)

(** An Action for which the test of line 200 finds no entry, own or
    inherited, is forwarded: the computation returned by [handle] is
    suspended with that very Action, and the value its consumer passes to
    the next call of [next] is the value with which the original
    computation is advanced. *)
Theorem forwarding handlers action computation abortedValue :
  lookup_handler handlers action = None ->
  forall x,
  fst (next (fresh (_handle_loop handlers (Yield action computation)
                      true false abortedValue)) x) =
    inr (suspended action) /\
  forall v,
  snd (next (fresh (_handle_loop handlers (Yield action computation)
                      true false abortedValue)) x) v =
    _handle_loop handlers (computation v) true false abortedValue.
Proof.
  intros Hno x. unfold next, fresh.
  rewrite _handle_loop_no_entry by assumption. simpl. auto.
Qed.

Lemma forwarding_witness :
  lookup_handler console_handlers State_get = None /\
  fst (next (fresh (_handle (Yield State_get (fun x => Return x))
                      console_handlers)) VUndefined) =
    inr (suspended State_get).
Proof.
  split; [reflexivity|].
  apply (forwarding console_handlers State_get (fun x => Return x)
           VUndefined eq_refl VUndefined).
Defined.

(** C1 (forwarding), where the code breaks it.  An Action that has no
    entry in the table, but for which the [in] tests of line 200 find an
    inherited plain value, is not forwarded: the computation is resumed
    with the inherited value and the consumer never sees the Action. *)
Theorem inherited_entry_is_not_forwarded handlers action computation
    abortedValue v :
  own_entry handlers action = None ->
  inherited handlers (effectName action) (constructorName action) =
    Some (EValue v) ->
  _handle_loop handlers (Yield action computation) true false abortedValue =
  _handle_loop handlers (computation v) true false abortedValue.
Proof.
  intros Hown Hin. apply _handle_loop_value.
  unfold lookup_handler. rewrite Hown. exact Hin.
Qed.

Lemma inherited_entry_is_not_forwarded_witness :
  own_entry bare_handlers constructor_name = None /\
  _handle (Yield constructor_name (fun x => Return x)) bare_handlers =
    Return (VString "Object").
Proof.
  split; [reflexivity|].
  exact (inherited_entry_is_not_forwarded bare_handlers constructor_name
           (fun x => Return x) VUndefined (VString "Object")
           eq_refl eq_refl).
Defined.

(** Handling a computation none of whose Actions has an entry changes
    nothing the consumer can see. *)
Lemma _handle_unhandled handlers c :
  unhandled handlers c -> equiv (_handle c handlers) c.
Proof.
  unfold _handle. induction 1 as [r|e|a k Hno _ IH].
  - constructor.
  - constructor.
  - rewrite _handle_loop_no_entry by assumption. constructor. exact IH.
Qed.

(** C6, as the code has it (value-shaped action creator).  For every
    effect name and operation name, the generator obtained through
    [Symbol.iterator] suspends, on its first advance, with an Action that
    carries the two names and no [parameters] property at all. *)
Theorem value_shaped_action effectName constructorName x :
  fst (next (fresh (iterator (createEffect effectName constructorName))) x) =
    inr (suspended (mkAction effectName constructorName None)).
Proof. reflexivity. Qed.

(** C6 as stated fails: the Action of [Console.width] has no parameter
    list, where the claim has the empty one. *)
Lemma value_shaped_parameters_not_empty :
  exists action,
    fst (next (fresh (iterator (createEffect "Console" "width"))) VUndefined) =
      inr (suspended action) /\
    effectName action = "Console" /\
    constructorName action = "width" /\
    parameters action <> Some [].
Proof.
  exists (mkAction "Console" "width" None). simpl.
  repeat split; discriminate.
Qed.

(** A value-shaped Action that meets a function entry: spreading its
    missing parameters raises before the handler is called. *)
Lemma value_shaped_meets_function handlers effectName constructorName f :
  lookup_handler handlers (mkAction effectName constructorName None) =
    Some (EFunction f) ->
  _handle (iterator (createEffect effectName constructorName)) handlers =
  Throw TypeError.
Proof.
  intros Hf. unfold _handle. simpl iterator.
  apply (_handle_loop_spread _ _ _ _ f); [exact Hf | reflexivity].
Qed.

(** C7 (operation-shaped action creator).  Calling the callable of any
    effect and operation with any arguments gives a generator that
    suspends, on its first advance, with the Action made of the effect
    name, the operation name and those arguments in order, and
    completes, on its second advance, with the value it is resumed
    with. *)
Theorem operation_shaped_action effectName constructorName parameters x v :
  fst (next (fresh (call (createEffect effectName constructorName)
                      parameters)) x) =
    inr (suspended (mkAction effectName constructorName (Some parameters))) /\
  fst (next (snd (next (fresh (call (createEffect effectName constructorName)
                                 parameters)) x)) v) =
    inr (completed v).
Proof. split; reflexivity. Qed.

(** C9 (call-form symmetry).  [handle(c, h)], [handle(h, c)] and
    [handle(h, () => c)] all return the generator of [_handle(c, h)]. *)
Theorem call_form_symmetry (c : Effectful) (h : Handlers) :
  handle (generator c) (table h) = Some (_handle c h) /\
  handle (table h) (generator c) = Some (_handle c h) /\
  handle (table h) (producer (fun _ => c)) = Some (_handle c h).
Proof. repeat split; reflexivity. Qed.

(** Once the flag is set, a nested generator behaves as if each of its
    calls of a tactic were the [throw] of the error: the Actions it
    yields before that call still reach the consumer. *)
Lemma yield_star_rejecting action computation rest nested : forall st,
  isPreviousEffectResolved st = true ->
  equiv (yield_star action computation nested st rest)
        (yield_star action computation (rejecting action nested) st rest).
Proof.
  induction nested as [r|e|a k IH|t k IH]; intros st Hr; simpl.
  - apply equiv_refl.
  - constructor.
  - constructor. intros x. apply IH, Hr.
  - rewrite invoke_resolved by exact Hr. constructor.
Qed.

(** C5, as the code has it (double-tactic rejection).  For one
    occurrence of an Action, whose handling starts with the flag
    cleared, and tactics called while the handler or the generator it
    returned runs: the first call does not raise the double-invocation
    error -- [abort] never raises, [resume] raises exactly when advancing
    the computation raises, and then that exception; once a call has
    returned, any call that follows raises the HandleError that names
    the effect and the operation, with the reason "cannot call handle
    tactics more than once", at that call: a handler function that makes
    two calls before it returns ends the generator of [handle] with that
    error, and a generator returned by the handler is driven up to its
    next call of a tactic, where the error is raised. *)
Theorem double_tactic_rejection action computation abortedValue
    (first second : Tactic) :
  match first with
  | call_abort _ =>
      exists st,
        invoke action computation first
          (mkLocals None false false abortedValue) = inr st
  | call_resume v =>
      match computation v with
      | Throw e =>
          invoke action computation first
            (mkLocals None false false abortedValue) = inl e
      | _ =>
          exists st,
            invoke action computation first
              (mkLocals None false false abortedValue) = inr st
      end
  end /\
  forall st,
    invoke action computation first (mkLocals None false false abortedValue) =
      inr st ->
    invoke action computation second st =
      inl (HandleError (HandleError_message (effectName action)
             (constructorName action) more_than_once)) /\
    (forall rest nested,
       equiv (yield_star action computation nested st rest)
             (yield_star action computation (rejecting action nested) st
                rest)) /\
    forall handlers f ps more,
      lookup_handler handlers action = Some (EFunction f) ->
      parameters action = Some ps ->
      tactic_calls (f ps) = first :: second :: more ->
      _handle_loop handlers (Yield action computation) true false
        abortedValue =
      Throw (HandleError (HandleError_message (effectName action)
               (constructorName action) more_than_once)).
Proof.
  split.
  - destruct first as [v|v]; simpl; unfold resume, abort; simpl.
    + destruct (computation v); eauto.
    + eauto.
  - intros st H1.
    assert (isPreviousEffectResolved st = true) as Hr.
    { destruct first as [v|v]; simpl in H1; unfold resume, abort in H1;
        simpl in H1.
      - destruct (computation v); inversion H1; reflexivity.
      - inversion H1; reflexivity. }
    split; [apply invoke_resolved, Hr|].
    split; [intros rest nested; apply yield_star_rejecting, Hr|].
    intros handlers f ps more Hf Hps Hcalls.
    rewrite (_handle_loop_function _ _ _ _ _ _ Hf Hps).
    unfold run_handler. rewrite Hcalls. simpl invoke_all. rewrite H1.
    rewrite invoke_resolved by exact Hr. reflexivity.
Qed.

Lemma double_tactic_rejection_witness :
  invoke Console_readLine (fun x => Return x) (call_resume (VNumber 1))
    (mkLocals None false false VUndefined) =
    inr (mkLocals (Some (VNumber 1)) true false VUndefined) /\
  invoke Console_readLine (fun x => Return x) (call_abort (VNumber 2))
    (mkLocals (Some (VNumber 1)) true false VUndefined) =
    inl (HandleError
           ("Fail to handle action 'Console.readLine'" +:+ newline +:+
            "cannot call handle tactics more than once")).
Proof.
  split; [reflexivity|].
  destruct (double_tactic_rejection Console_readLine (fun x => Return x)
              VUndefined (call_resume (VNumber 1)) (call_abort (VNumber 2)))
    as [_ H].
  destruct (H (mkLocals (Some (VNumber 1)) true false VUndefined) eq_refl)
    as [H2 _].
  exact H2.
Defined.

(** C5 as stated fails: the first call of [resume] raises when the
    computation raises on being advanced, and the generator of [handle]
    ends with that exception. *)
Lemma first_resume_raises :
  lookup_handler console_handlers Console_readLine =
    Some (EFunction (fun _ =>
            mkHandlerResult [call_resume (VString "hi")] None)) /\
  invoke Console_readLine (fun _ => Throw (Thrown (VString "boom")))
    (call_resume (VString "hi")) (mkLocals None false false VUndefined) =
    inl (Thrown (VString "boom")) /\
  _handle failing console_handlers = Throw (Thrown (VString "boom")).
Proof. repeat split; reflexivity. Qed.

(** C3 (nested handler bodies).  When the entry matched by an Action is a
    function that returns a generator, and that generator runs to its
    end when its suspensions are answered from [answers]: the consumer
    of [handle] sees exactly the Actions the nested generator yields, in
    order, and its answers are the values the nested generator is
    resumed with; the result of the nested generator plays no part; the
    loop then goes on from the variables as the tactic calls made on the
    way left them, with the answers that remain. *)
Theorem nested_handler_body handlers action computation abortedValue0 f ps
    nested answers result st :
  lookup_handler handlers action = Some (EFunction f) ->
  parameters action = Some ps ->
  maybeComputation (f ps) = Some nested ->
  ended (play nested answers) = Completed result ->
  invoke_all action computation
    (tactic_calls (f ps) ++ called (play nested answers))
    (mkLocals None false false abortedValue0) = inr st ->
  observe (_handle_loop handlers (Yield action computation) true false
             abortedValue0) answers =
  (yielded (play nested answers) ++
     fst (observe (_handle_loop handlers (thrown_of action computation st)
                     (isPreviousEffectResolved st) (aborted st)
                     (abortedValue st))
            (unread (play nested answers))),
   snd (observe (_handle_loop handlers (thrown_of action computation st)
                   (isPreviousEffectResolved st) (aborted st)
                   (abortedValue st))
          (unread (play nested answers)))).
Proof.
  intros Hf Hps Hn He Hi.
  rewrite (_handle_loop_function _ _ _ _ _ _ Hf Hps).
  rewrite <- back_to_loop_head
    by (eapply invoke_all_consistent; [|exact Hi]; reflexivity).
  pose proof (run_handler_play handlers action computation (f ps)
                abortedValue0 answers st result) as H.
  unfold play_handler in H. rewrite Hn in H. simpl in H. auto.
Qed.

Lemma nested_handler_body_witness :
  observe (_handle (Yield Console_readLine (fun x => Return x))
             asking_handlers) [VNumber 5] =
  ([State_get], Completed (VNumber 5)).
Proof.
  exact (nested_handler_body asking_handlers Console_readLine
           (fun x => Return x) VUndefined asking []
           (NYield State_get (fun x =>
              NTactic (call_resume x) (NReturn VUndefined)))
           [VNumber 5] VUndefined
           (mkLocals (Some (VNumber 5)) true false VUndefined)
           eq_refl eq_refl eq_refl eq_refl eq_refl).
Defined.

(** C4 (tactic never invoked).  When the entry matched by an Action is a
    function that returns, and the generator it may have returned runs
    to its end, without any call of a tactic, the generator of [handle]
    raises the HandleError that names the effect and the operation of
    that Action, after the Actions of the nested generator. *)
Theorem tactic_never_invoked handlers action computation abortedValue f ps
    answers result :
  lookup_handler handlers action = Some (EFunction f) ->
  parameters action = Some ps ->
  called (play_handler (f ps) answers) = [] ->
  ended (play_handler (f ps) answers) = Completed result ->
  observe (_handle_loop handlers (Yield action computation) true false
             abortedValue) answers =
  (yielded (play_handler (f ps) answers),
   Raised (HandleError (HandleError_message (effectName action)
             (constructorName action) must_call))).
Proof.
  intros Hf Hps Hc He.
  rewrite (_handle_loop_function _ _ _ _ _ _ Hf Hps).
  rewrite (run_handler_play handlers action computation (f ps) abortedValue
             answers (mkLocals None false false abortedValue) result He)
    by (rewrite Hc; reflexivity).
  simpl. rewrite app_nil_r. reflexivity.
Qed.

Lemma tactic_never_invoked_witness :
  observe (_handle (Yield Console_readLine (fun x => Return x))
             silent_handlers) [VNumber 5] =
  ([State_get],
   Raised (HandleError
             ("Fail to handle action 'Console.readLine'" +:+ newline +:+
              "Effect handlers must call handle tactics"))).
Proof.
  exact (tactic_never_invoked silent_handlers Console_readLine
           (fun x => Return x) VUndefined silent [] [VNumber 5] VUndefined
           eq_refl eq_refl eq_refl eq_refl).
Defined.

(** C2 (abort short-circuits).  When the handler function matched by an
    Action calls [abort(v)], as the one tactic it invokes for that
    Action, the generator of [handle] completes with [v]; whatever the
    original computation would still do, it is not asked: the consumer
    sees only what the handler's own generator yields. *)
Theorem abort_short_circuits handlers action abortedValue f ps answers v
    result :
  lookup_handler handlers action = Some (EFunction f) ->
  parameters action = Some ps ->
  called (play_handler (f ps) answers) = [call_abort v] ->
  ended (play_handler (f ps) answers) = Completed result ->
  forall remaining : Generator,
  observe (_handle_loop handlers (Yield action remaining) true false
             abortedValue) answers =
  (yielded (play_handler (f ps) answers), Completed v).
Proof.
  intros Hf Hps Hc He remaining.
  rewrite (_handle_loop_function _ _ _ _ _ _ Hf Hps).
  rewrite (run_handler_play handlers action remaining (f ps) abortedValue
             answers (mkLocals None true true v) result He)
    by (rewrite Hc; reflexivity).
  simpl. rewrite app_nil_r. reflexivity.
Qed.

Lemma abort_short_circuits_witness :
  observe (_handle echo aborting_handlers) [VNumber 5] =
  ([State_get], Completed (VNumber 7)).
Proof.
  exact (abort_short_circuits aborting_handlers Console_readLine VUndefined
           aborting [] [VNumber 5] (VNumber 7) VUndefined
           eq_refl eq_refl eq_refl eq_refl
           (fun line => bind (call (Console "writeLine") [line])
              (fun _ => Return line))).
Defined.

(** C10 (abort does not suppress the nested body).  When the handler
    function calls [abort(v)] before it returns and returns a generator
    (which calls no tactic), the Actions of that generator are still
    forwarded to the consumer one by one: as long as the nested
    generator is suspended so is the generator of [handle], and it
    completes with [v] only once the nested generator has run to its
    end. *)
Theorem abort_keeps_nested_body handlers action computation abortedValue f
    ps v nested answers :
  lookup_handler handlers action = Some (EFunction f) ->
  parameters action = Some ps ->
  tactic_calls (f ps) = [call_abort v] ->
  maybeComputation (f ps) = Some nested ->
  called (play nested answers) = [] ->
  (ended (play nested answers) = Pending ->
   observe (_handle_loop handlers (Yield action computation) true false
              abortedValue) answers =
   (yielded (play nested answers), Pending)) /\
  (forall result, ended (play nested answers) = Completed result ->
   observe (_handle_loop handlers (Yield action computation) true false
              abortedValue) answers =
   (yielded (play nested answers), Completed v)).
Proof.
  intros Hf Hps Hcalls Hn Hc.
  rewrite (_handle_loop_function _ _ _ _ _ _ Hf Hps).
  unfold run_handler. rewrite Hcalls, Hn. simpl invoke_all.
  split.
  - intros He. eapply yield_star_pending; [exact He|].
    rewrite Hc. reflexivity.
  - intros result He.
    erewrite yield_star_play; [|exact He|rewrite Hc; reflexivity].
    simpl. rewrite app_nil_r. reflexivity.
Qed.

Lemma abort_keeps_nested_body_witness :
  observe (_handle echo aborting_handlers) [] = ([State_get], Pending) /\
  observe (_handle echo aborting_handlers) [VNumber 5] =
    ([State_get], Completed (VNumber 7)).
Proof.
  destruct (abort_keeps_nested_body aborting_handlers Console_readLine
              (fun line => bind (call (Console "writeLine") [line])
                 (fun _ => Return line))
              VUndefined aborting [] (VNumber 7)
              (NYield State_get (fun _ => NReturn VUndefined)) []
              eq_refl eq_refl eq_refl eq_refl eq_refl) as [Hp _].
  destruct (abort_keeps_nested_body aborting_handlers Console_readLine
              (fun line => bind (call (Console "writeLine") [line])
                 (fun _ => Return line))
              VUndefined aborting [] (VNumber 7)
              (NYield State_get (fun _ => NReturn VUndefined)) [VNumber 5]
              eq_refl eq_refl eq_refl eq_refl eq_refl) as [_ Hc].
  split; [exact (Hp eq_refl) | exact (Hc VUndefined eq_refl)].
Defined.

(** ** Two tables *)

Lemma own_entry_merge A B action :
  own_entry (merge A B) action =
  match own_entry A action with
  | Some entry => Some entry
  | None => own_entry B action
  end.
Proof.
  unfold own_entry, merge. simpl. rewrite lookup_union_with.
  destruct (own A !! effectName action) as [opsA|],
           (own B !! effectName action) as [opsB|]; simpl; try reflexivity.
  - rewrite lookup_union.
    destruct (opsA !! constructorName action),
             (opsB !! constructorName action); reflexivity.
  - destruct (opsA !! constructorName action); reflexivity.
Qed.

(** For tables that inherit nothing, the merged table is their union. *)
Lemma union_of_merge A B :
  (forall e c, inherited A e c = None) ->
  (forall e c, inherited B e c = None) ->
  union_of (merge A B) A B.
Proof.
  intros HA HB action. unfold lookup_handler.
  rewrite own_entry_merge. simpl. rewrite HA, HB.
  destruct (own_entry A action); [reflexivity|].
  destruct (own_entry B action); reflexivity.
Qed.

Lemma union_of_l U A B action entry :
  union_of U A B ->
  lookup_handler A action = Some entry ->
  lookup_handler U action = Some entry.
Proof. intros HU H. rewrite HU, H. reflexivity. Qed.

Lemma union_of_r U A B action :
  union_of U A B ->
  lookup_handler A action = None ->
  lookup_handler U action = lookup_handler B action.
Proof. intros HU H. rewrite HU, H. reflexivity. Qed.

Lemma yield_star_calls action computation rest nested calls : forall st,
  yield_star action computation (fold_right NTactic nested calls) st rest =
  match invoke_all action computation calls st with
  | inl e => Throw e
  | inr st' => yield_star action computation nested st' rest
  end.
Proof.
  induction calls as [|t calls IH]; intros st; simpl; [reflexivity|].
  destruct (invoke action computation t st); [reflexivity | apply IH].
Qed.

Lemma run_handler_script handlers action computation r abortedValue :
  run_handler handlers action computation r abortedValue =
  yield_star action computation (script r)
    (mkLocals None false false abortedValue)
    (back_to_loop handlers action computation).
Proof.
  unfold run_handler, script. rewrite yield_star_calls.
  destruct (invoke_all _ _ _ _); [reflexivity|].
  destruct (maybeComputation r); reflexivity.
Qed.

Lemma alike_refl st : alike st st.
Proof. unfold alike. auto. Qed.

Lemma _handle_loop_Throw handlers e resolved aborted' v :
  _handle_loop handlers (Throw e) resolved aborted' v = Throw e.
Proof. reflexivity. Qed.

(** The tactics act alike on states that are alike. *)
Lemma invoke_alike action computation t st st' :
  alike st st' ->
  match invoke action computation t st, invoke action computation t st' with
  | inl e, inl e' => e = e'
  | inr st1, inr st1' => alike st1 st1'
  | _, _ => False
  end.
Proof.
  intros (Hr & Hi & Ha & Hv).
  destruct t as [v|v]; simpl; unfold resume, abort; rewrite <- Hi;
    destruct (isPreviousEffectResolved st); try reflexivity.
  - destruct (computation v); try reflexivity;
      (split; [reflexivity|]; split; [reflexivity|]; simpl; auto).
  - split; [exact Hr|]. simpl. auto.
Qed.

(** A call of [resume] that is the last act of a handler: the loop goes
    on from [computation.next(v)], whether that raises or not. *)
Lemma resume_then_return handlers action computation v result st :
  isPreviousEffectResolved st = false ->
  yield_star action computation (NTactic (call_resume v) (NReturn result)) st
    (back_to_loop handlers action computation) =
  _handle_loop handlers (computation v) true (aborted st) (abortedValue st).
Proof.
  intros Hr. simpl. unfold resume. rewrite Hr.
  destruct (computation v) eqn:E; simpl; rewrite ?E; reflexivity.
Qed.

Section TwoTables.

Variables A B U : Handlers.
Hypothesis union : union_of U A B.
Hypothesis performs : performs_outside A B.
Hypothesis resumes : resumes_last B.

(** An Action handled by the outer of two loops: its handler function,
    which resumes last, runs against the inner loop as it runs against
    the computation itself. *)
Lemma handled_by_outer action (K k : Generator) :
  (forall v av1 av2,
     equiv (_handle_loop B (K v) true false av1)
           (_handle_loop U (k v) true false av2)) ->
  forall s, resume_last s ->
  forall st st', consistent st -> alike st st' ->
  equiv (yield_star action K s st (back_to_loop B action K))
        (yield_star action k s st' (back_to_loop U action k)).
Proof.
  intros H s Hs.
  induction Hs as [r|e|a kk _ IH|v kk _ IH|v r]; intros st st' Hc Ha.
  - destruct st as [r1 i1 a1 v1], st' as [r2 i2 a2 v2].
    destruct Ha as (Hr & Hi & Hab & Hv). simpl in *. subst r2 i2 a2.
    unfold consistent in Hc. simpl in Hc.
    destruct r1 as [w|].
    + destruct Hc as [-> ->]. apply H.
    + subst a1. unfold after_loop. simpl.
      destruct i1; simpl; [rewrite Hv by reflexivity|]; apply equiv_refl.
  - constructor.
  - simpl. constructor. intros x. apply IH; assumption.
  - pose proof (invoke_alike action K (call_abort v) st st' Ha) as Hinv.
    pose proof (invoke_consistent action K (call_abort v) st) as Hcons.
    change (invoke action k (call_abort v) st')
      with (invoke action K (call_abort v) st') in *.
    simpl yield_star.
    change (abort action v st) with (invoke action K (call_abort v) st).
    change (abort action v st') with (invoke action K (call_abort v) st').
    destruct (invoke action K (call_abort v) st) as [e|st1],
             (invoke action K (call_abort v) st') as [e'|st1'];
      try contradiction.
    + subst e'. constructor.
    + apply IH; [eapply Hcons; eauto | exact Hinv].
  - destruct (isPreviousEffectResolved st) eqn:Hi.
    + assert (isPreviousEffectResolved st' = true) as Hi'
        by (destruct Ha as (_ & <- & _); exact Hi).
      simpl. unfold resume. rewrite Hi, Hi'. constructor.
    + assert (isPreviousEffectResolved st' = false) as Hi'
        by (destruct Ha as (_ & <- & _); exact Hi).
      rewrite !resume_then_return by assumption.
      assert (aborted st = false) as Hab.
      { unfold consistent in Hc. destruct (resumed st).
        - destruct Hc; congruence.
        - congruence. }
      destruct Ha as (_ & _ & Ha & _). rewrite <- Ha, Hab. apply H.
Qed.

(** An Action handled by the inner of two loops: what its handler
    function performs is outside the outer table and passes through. *)
Lemma handled_by_inner action (k : Generator) :
  (forall v av1 av2 av3,
     equiv (_handle_loop B (_handle_loop A (k v) true false av1)
              true false av2)
           (_handle_loop U (k v) true false av3)) ->
  forall s, avoids B s ->
  forall st st' avB, consistent st -> alike st st' ->
  equiv (_handle_loop B
           (yield_star action k s st (back_to_loop A action k))
           true false avB)
        (yield_star action k s st' (back_to_loop U action k)).
Proof.
  intros H s Hs.
  induction Hs as [r|e|a kk Hno _ IH|t kk _ IH]; intros st st' avB Hc Ha.
  - destruct st as [r1 i1 a1 v1], st' as [r2 i2 a2 v2].
    destruct Ha as (Hr & Hi & Hab & Hv). simpl in *. subst r2 i2 a2.
    unfold consistent in Hc. simpl in Hc.
    destruct r1 as [w|].
    + destruct Hc as [-> ->]. apply H.
    + subst a1. unfold after_loop. simpl.
      destruct i1; simpl; [rewrite Hv by reflexivity|]; apply equiv_refl.
  - constructor.
  - simpl yield_star. rewrite _handle_loop_no_entry by exact Hno.
    constructor. intros x. apply IH; assumption.
  - pose proof (invoke_alike action k t st st' Ha) as Hinv.
    pose proof (invoke_consistent action k t st) as Hcons.
    simpl yield_star.
    destruct (invoke action k t st) as [e|st1],
             (invoke action k t st') as [e'|st1'];
      try contradiction.
    + subst e'. constructor.
    + apply IH; [eapply Hcons; eauto | exact Hinv].
Qed.

(** Handling with [A] and then with [B], against handling once with
    both. *)
Lemma handle_twice c : forall avA avB avU,
  equiv (_handle_loop B (_handle_loop A c true false avA) true false avB)
        (_handle_loop U c true false avU).
Proof.
  induction c as [r|e|a k IH]; intros avA avB avU.
  - constructor.
  - constructor.
  - destruct (lookup_handler A a) as [[v|f]|] eqn:EA.
    + rewrite (_handle_loop_value A _ _ _ v) by exact EA.
      rewrite (_handle_loop_value U _ _ _ v)
        by (apply (union_of_l U A B); [exact union | exact EA]).
      apply IH.
    + destruct (parameters a) as [ps|] eqn:Eps.
      * rewrite (_handle_loop_function A _ _ _ f ps) by assumption.
        rewrite (_handle_loop_function U _ _ _ f ps)
          by (try apply (union_of_l U A B); assumption).
        rewrite !run_handler_script.
        apply handled_by_inner.
        -- intros v av1 av2 av3. apply IH.
        -- eapply performs; exact EA.
        -- reflexivity.
        -- repeat split; discriminate.
      * rewrite (_handle_loop_spread A _ _ _ f) by assumption.
        rewrite (_handle_loop_spread U _ _ _ f)
          by (try apply (union_of_l U A B); assumption).
        constructor.
    + rewrite (_handle_loop_no_entry A) by exact EA.
      pose proof (union_of_r U A B a union EA) as EU.
      destruct (lookup_handler B a) as [[v|f]|] eqn:EB.
      * rewrite (_handle_loop_value B _ _ _ v) by exact EB.
        rewrite (_handle_loop_value U _ _ _ v) by exact EU.
        apply IH.
      * destruct (parameters a) as [ps|] eqn:Eps.
        -- rewrite (_handle_loop_function B _ _ _ f ps) by assumption.
           rewrite (_handle_loop_function U _ _ _ f ps)
             by assumption.
           rewrite !run_handler_script.
           apply handled_by_outer.
           ++ intros v av1 av2. apply IH.
           ++ eapply resumes; exact EB.
           ++ reflexivity.
           ++ repeat split; discriminate.
        -- rewrite (_handle_loop_spread B _ _ _ f) by assumption.
           rewrite (_handle_loop_spread U _ _ _ f) by assumption.
           constructor.
      * rewrite (_handle_loop_no_entry B) by exact EB.
        rewrite (_handle_loop_no_entry U) by exact EU.
        constructor. intros x. apply IH.
Qed.

End TwoTables.

(** Tables that inherit nothing. *)
Lemma plain_inherits_nothing entries e c :
  inherited (plain entries) e c = None.
Proof. reflexivity. Qed.



(** The second condition is needed as well.  [B] resumes [State.get] and
    then performs [Trace.note]; the next Action, [Console.log], is
    handled in [A] by a function that calls no tactic.  Handled in two
    steps, the error of [A] is raised inside the call of [resume]; handled
    in one step, [Trace.note] reaches the consumer first. *)
Lemma composition_differs_in_time :
  disjoint_keys mute_handlers noting_handlers /\
  covered (merge mute_handlers noting_handlers) get_then_log /\
  performs_outside mute_handlers noting_handlers /\
  observe (_handle (_handle get_then_log mute_handlers) noting_handlers) [] =
    ([], Raised (HandleError (HandleError_message "Console" "log"
                                must_call))) /\
  observe (_handle get_then_log (merge mute_handlers noting_handlers)) [] =
    ([Trace_note], Pending).
Proof.
  split; [|split; [|split; [|split; reflexivity]]].
  - intros [e c p]. unfold own_entry. simpl.
    destruct (decide (e = "Console")) as [->|Hne].
    + right. reflexivity.
    + left. rewrite lookup_singleton_ne by congruence. reflexivity.
  - constructor; [discriminate|]. intros x.
    constructor; [discriminate|]. intros y. constructor.
  - intros [e c p] f ps. unfold lookup_handler, own_entry. simpl.
    destruct (decide (e = "Console")) as [->|Hne].
    + rewrite lookup_singleton_eq.
      destruct (decide (c = "log")) as [->|Hne].
      * rewrite lookup_singleton_eq. intros [= <-]. constructor.
      * rewrite lookup_singleton_ne by congruence. discriminate.
    + rewrite lookup_singleton_ne by congruence. discriminate.
Qed.


(** ** The scenario of the specification *)

(** [readLine] is resumed with "hi", [writeLine] receives the line, and
    the computation completes with it without ever suspending. *)
Example echo_handled :
  observe (_handle echo console_handlers) [] = ([], Completed (VString "hi")).
Proof. reflexivity. Qed.

(** Unhandled, both Actions reach the consumer. *)
Example echo_unhandled :
  observe (_handle echo (plain ∅)) [VString "a"; VUndefined] =
  ([mkAction "Console" "readLine" (Some []);
    mkAction "Console" "writeLine" (Some [VString "a"])],
   Completed (VString "a")).
Proof. reflexivity. Qed.

(** A second call of [abort] raises. *)
Example abort_twice :
  _handle echo twice_handlers =
  Throw (HandleError (HandleError_message "Console" "readLine"
                        more_than_once)).
Proof. reflexivity. Qed.

(** ** Further properties of the dispatch loop *)

Lemma yield_star_equiv action computation nested :
  forall st rest1 rest2,
  (forall st', equiv (rest1 st') (rest2 st')) ->
  equiv (yield_star action computation nested st rest1)
        (yield_star action computation nested st rest2).
Proof.
  induction nested as [r|e|a k IH|t k IH]; intros st rest1 rest2 H; simpl.
  - apply H.
  - constructor.
  - constructor. intros x. apply IH, H.
  - destruct (invoke action computation t st); [constructor | apply IH, H].
Qed.

(** The loop uses the table only through the entries it finds. *)
Lemma _handle_loop_ext h1 h2 :
  (forall action, lookup_handler h1 action = lookup_handler h2 action) ->
  forall c resolved aborted' v,
  equiv (_handle_loop h1 c resolved aborted' v)
        (_handle_loop h2 c resolved aborted' v).
Proof.
  intros H c. induction c as [r|e|a k IH]; intros resolved aborted' v.
  - apply equiv_refl.
  - apply equiv_refl.
  - simpl. destruct (resolved && negb aborted'); [|apply equiv_refl].
    rewrite <- H. destruct (lookup_handler h1 a) as [[w|f]|].
    + apply IH.
    + destruct (parameters a) as [ps|]; [|constructor].
      destruct (invoke_all a k (tactic_calls (f ps)) _) as [e|st];
        [constructor|].
      assert (forall st', equiv
        (let '(mkLocals resumed resolved0 aborted'0 value') := st' in
         match resumed with
         | Some v0 => _handle_loop h1 (k v0) resolved0 aborted'0 value'
         | None => after_loop (Yield a k) resolved0 aborted'0 value'
         end)
        (let '(mkLocals resumed resolved0 aborted'0 value') := st' in
         match resumed with
         | Some v0 => _handle_loop h2 (k v0) resolved0 aborted'0 value'
         | None => after_loop (Yield a k) resolved0 aborted'0 value'
         end)) as Hrest.
      { intros [[w|] i b u]; [apply IH | apply equiv_refl]. }
      destruct (maybeComputation (f ps)) as [nested|].
      * apply yield_star_equiv. exact Hrest.
      * apply Hrest.
    + constructor. intros x. apply IH.
Qed.

(** X1.  Handling a computation for none of whose Actions the table
    finds an entry, own or inherited -- in particular handling with an
    empty table that inherits nothing -- changes nothing its consumer can
    observe: the same Actions, answered the same way, and the same result
    or exception. *)
Theorem unhandled_identity handlers c :
  unhandled handlers c ->
  forall answers,
  observe (_handle c handlers) answers = observe c answers.
Proof. intros H. apply equiv_observe, _handle_unhandled, H. Qed.

Lemma unhandled_identity_witness :
  observe (_handle echo (plain ∅)) [VString "a"; VUndefined] =
  observe echo [VString "a"; VUndefined].
Proof.
  apply (unhandled_identity (plain ∅) echo).
  constructor; [reflexivity|]. intros x.
  constructor; [reflexivity|]. intros y. constructor.
Defined.

(** X2.  A handler function that does nothing but call [resume(v)] acts
    as the plain value entry [v] does: the loop goes on from the
    computation advanced with [v], without suspending. *)
Theorem resume_entry_as_value handlers action computation abortedValue f ps
    v :
  lookup_handler handlers action = Some (EFunction f) ->
  parameters action = Some ps ->
  tactic_calls (f ps) = [call_resume v] ->
  maybeComputation (f ps) = None ->
  _handle_loop handlers (Yield action computation) true false abortedValue =
  _handle_loop handlers (computation v) true false abortedValue.
Proof.
  intros Hf Hps Hcalls Hnone.
  rewrite (_handle_loop_function _ _ _ _ _ _ Hf Hps).
  unfold run_handler. rewrite Hcalls, Hnone. simpl. unfold resume. simpl.
  destruct (computation v) eqn:E; simpl; rewrite ?E; reflexivity.
Qed.

Lemma resume_entry_as_value_witness :
  _handle echo console_handlers =
  _handle (bind (call (Console "writeLine") [VString "hi"])
             (fun _ => Return (VString "hi"))) console_handlers.
Proof.
  exact (resume_entry_as_value console_handlers Console_readLine
           (fun line => bind (call (Console "writeLine") [line])
              (fun _ => Return line))
           VUndefined
           (fun _ => mkHandlerResult [call_resume (VString "hi")] None)
           [] (VString "hi") eq_refl eq_refl eq_refl eq_refl).
Defined.

(** X3.  An Action without parameter list (the Action of a value-shaped
    creator) whose entry is a function: spreading [action.parameters]
    raises a TypeError; the function is not called and the computation
    is not advanced. *)
Theorem missing_parameters_raise handlers effectName constructorName f :
  lookup_handler handlers (mkAction effectName constructorName None) =
    Some (EFunction f) ->
  forall computation abortedValue answers,
  observe (_handle_loop handlers
             (Yield (mkAction effectName constructorName None) computation)
             true false abortedValue) answers =
  ([], Raised TypeError) /\
  observe (_handle (iterator (createEffect effectName constructorName))
             handlers) answers =
  ([], Raised TypeError).
Proof.
  intros Hf computation abortedValue answers. split.
  - rewrite (_handle_loop_spread _ _ _ _ f) by (auto || reflexivity).
    reflexivity.
  - unfold _handle. simpl iterator.
    rewrite (_handle_loop_spread _ _ _ _ f) by (auto || reflexivity).
    reflexivity.
Qed.

Lemma missing_parameters_raise_witness :
  observe (_handle (iterator (Console "width")) width_function_handlers) [] =
  ([], Raised TypeError).
Proof.
  apply (missing_parameters_raise width_function_handlers "Console" "width"
           answering eq_refl (fun x => Return x) VUndefined []).
Defined.

(** X4.  A plain value entry answers both shapes of its effect: whether
    the Action comes from the value-shaped or from the operation-shaped
    creator, with whatever arguments, the handled computation completes
    with the value of the entry and never suspends. *)
Theorem value_entry_answers_both_shapes handlers effectName constructorName
    v :
  lookup_handler handlers (mkAction effectName constructorName None) =
    Some (EValue v) ->
  _handle (iterator (createEffect effectName constructorName)) handlers =
    Return v /\
  forall parameters,
  _handle (call (createEffect effectName constructorName) parameters)
    handlers = Return v.
Proof.
  intros H.
  split; [|intros parameters]; unfold _handle; simpl call; simpl iterator;
    rewrite (_handle_loop_value _ _ _ _ v) by exact H; reflexivity.
Qed.

Lemma value_entry_answers_both_shapes_witness :
  _handle (iterator (Console "width")) width_handlers = Return (VNumber 80) /\
  _handle (call (Console "width") [VNumber 1]) width_handlers =
    Return (VNumber 80).
Proof.
  destruct (value_entry_answers_both_shapes width_handlers "Console" "width"
              (VNumber 80) eq_refl) as [H1 H2].
  split; [exact H1 | exact (H2 [VNumber 1])].
Defined.

(** ** What the consumer of a handled computation can still see *)

Lemma unhandled_yield_star handlers action computation nested :
  avoids handlers nested ->
  forall st rest,
  (forall st', unhandled handlers (rest st')) ->
  unhandled handlers (yield_star action computation nested st rest).
Proof.
  induction 1 as [r|e|a k Hno _ IH|t k _ IH]; intros st rest Hrest; simpl.
  - apply Hrest.
  - constructor.
  - constructor; [exact Hno|]. intros x. apply IH, Hrest.
  - destruct (invoke action computation t st); [constructor | apply IH, Hrest].
Qed.

Lemma unhandled_after_loop handlers thrown resolved aborted' v :
  unhandled handlers (after_loop thrown resolved aborted' v).
Proof. unfold after_loop. destruct (negb resolved); constructor. Qed.

Lemma avoids_script_nested handlers r nested :
  avoids handlers (script r) ->
  maybeComputation r = Some nested ->
  avoids handlers nested.
Proof.
  unfold script. intros H E. rewrite E in H.
  induction (tactic_calls r) as [|t calls IH]; simpl in H; [exact H|].
  inversion H; subst. auto.
Qed.

Lemma unhandled__handle_loop handlers :
  performs_outside handlers handlers ->
  forall c resolved aborted' v,
  unhandled handlers (_handle_loop handlers c resolved aborted' v).
Proof.
  intros Hout c. induction c as [r|e|a k IH]; intros resolved aborted' v.
  - apply unhandled_after_loop.
  - constructor.
  - simpl. destruct (resolved && negb aborted');
      [|apply unhandled_after_loop].
    destruct (lookup_handler handlers a) as [[w|f]|] eqn:El.
    + apply IH.
    + destruct (parameters a) as [ps|]; [|constructor].
      destruct (invoke_all a k (tactic_calls (f ps)) _) as [e|st];
        [constructor|].
      assert (forall st', unhandled handlers
        (let '(mkLocals resumed resolved0 aborted'0 value') := st' in
         match resumed with
         | Some v0 => _handle_loop handlers (k v0) resolved0 aborted'0 value'
         | None => after_loop (Yield a k) resolved0 aborted'0 value'
         end)) as Hrest.
      { intros [[w|] i b u]; [apply IH | apply unhandled_after_loop]. }
      destruct (maybeComputation (f ps)) as [nested|] eqn:En.
      * apply unhandled_yield_star; [|exact Hrest].
        eapply avoids_script_nested; [|exact En]. eapply Hout, El.
      * apply Hrest.
    + constructor; [exact El|]. intros x. apply IH.
Qed.

Lemma unhandled_observe handlers c :
  unhandled handlers c ->
  forall answers,
  Forall (fun action => lookup_handler handlers action = None)
    (fst (observe c answers)).
Proof.
  induction 1 as [r|e|a k Hno _ IH]; intros answers; simpl.
  - constructor.
  - constructor.
  - destruct answers as [|x answers]; simpl.
    + repeat constructor. exact Hno.
    + specialize (IH x answers).
      destruct (observe (k x) answers) as [trace o]. simpl in *.
      constructor; assumption.
Qed.

(** X5.  No handled Action escapes.  When the handler functions a table
    finds perform no Action for which the table itself finds an entry,
    every Action the consumer of the handled computation ever sees is one
    for which the table finds none. *)
Theorem handled_actions_do_not_escape handlers c :
  performs_outside handlers handlers ->
  forall answers,
  Forall (fun action => lookup_handler handlers action = None)
    (fst (observe (_handle c handlers) answers)).
Proof.
  intros Hout. apply unhandled_observe, unhandled__handle_loop, Hout.
Qed.

(** X6.  Handling is idempotent.  Under the same condition, handling the
    handled computation once more with the same table changes nothing
    its consumer can observe. *)
Theorem handling_twice_same_table handlers c :
  performs_outside handlers handlers ->
  forall answers,
  observe (_handle (_handle c handlers) handlers) answers =
  observe (_handle c handlers) answers.
Proof.
  intros Hout. apply equiv_observe, _handle_unhandled,
    unhandled__handle_loop, Hout.
Qed.

(** Case analysis on the keys of a table written with singletons and
    insertions. *)
Ltac table_cases :=
  repeat first
    [ match goal with
      | |- context [ (singletonM ?k _) !! ?x ] =>
          destruct (decide (x = k)) as [->|?];
          [rewrite lookup_singleton_eq
          |rewrite lookup_singleton_ne by congruence]
      end
    | match goal with
      | |- context [ (<[ ?k := _ ]> _) !! ?x ] =>
          destruct (decide (x = k)) as [->|?];
          [rewrite lookup_insert_eq
          |rewrite lookup_insert_ne by congruence]
      end ].

Lemma handled_actions_do_not_escape_witness :
  Forall (fun action => lookup_handler asking_handlers action = None)
    (fst (observe (_handle echo asking_handlers) [VNumber 5])).
Proof.
  apply (handled_actions_do_not_escape asking_handlers echo).
  intros [e c p] f ps. unfold lookup_handler, own_entry, asking_handlers. simpl.
  table_cases; try discriminate.
  intros [= <-]. constructor; [reflexivity|]. intros x. repeat constructor.
Defined.

Lemma handling_twice_same_table_witness :
  observe (_handle (_handle echo asking_handlers) asking_handlers)
    [VNumber 5] =
  observe (_handle echo asking_handlers) [VNumber 5].
Proof.
  apply (handling_twice_same_table asking_handlers echo).
  intros [e c p] f ps. unfold lookup_handler, own_entry, asking_handlers. simpl.
  table_cases; try discriminate.
  intros [= <-]. constructor; [reflexivity|]. intros x. repeat constructor.
Defined.

(** X7.  Only what is found counts.  Two tables in which every (effect
    name, operation name) finds the same entry handle every computation
    alike; so an effect name bound to an empty object of operations that
    inherits nothing handles nothing. *)
Theorem same_entries_same_handling h1 h2 c :
  (forall action, lookup_handler h1 action = lookup_handler h2 action) ->
  forall answers,
  observe (_handle c h1) answers = observe (_handle c h2) answers.
Proof. intros H. apply equiv_observe, _handle_loop_ext, H. Qed.

Lemma same_entries_same_handling_witness :
  observe (_handle echo hollow_handlers) [VString "a"] =
  observe (_handle echo (plain ∅)) [VString "a"].
Proof.
  apply (same_entries_same_handling hollow_handlers (plain ∅) echo).
  intros [e c p]. unfold lookup_handler, own_entry, hollow_handlers. simpl.
  table_cases; reflexivity.
Defined.

Lemma union_of_found_in_either A B : union_of (found_in_either A B) A B.
Proof. intros [e c p]. reflexivity. Qed.

(** X8.  Two handlings commute.  For two tables such that no Action
    finds an entry in both, whose handler functions perform no Action
    for which the other table finds an entry and do nothing more once
    they have called [resume], handling with one and then with the other
    is observably the same in either order. *)
Theorem handling_commutes A B c :
  (forall action,
     lookup_handler A action = None \/ lookup_handler B action = None) ->
  performs_outside A B -> performs_outside B A ->
  resumes_last A -> resumes_last B ->
  forall answers,
  observe (_handle (_handle c A) B) answers =
  observe (_handle (_handle c B) A) answers.
Proof.
  intros Hd HAB HBA HA HB. apply equiv_observe.
  apply equiv_trans
    with (_handle_loop (found_in_either A B) c true false VUndefined);
    [apply (handle_twice A B _ (union_of_found_in_either A B) HAB HB)|].
  apply equiv_trans
    with (_handle_loop (found_in_either B A) c true false VUndefined).
  - apply _handle_loop_ext. intros action.
    rewrite (union_of_found_in_either A B action).
    rewrite (union_of_found_in_either B A action).
    destruct (Hd action) as [H|H]; rewrite H.
    + destruct (lookup_handler B action); reflexivity.
    + destruct (lookup_handler A action); reflexivity.
  - apply equiv_sym.
    apply (handle_twice B A _ (union_of_found_in_either B A) HBA HA).
Qed.

Lemma handling_commutes_witness :
  observe (_handle (_handle session console_handlers) answering_handlers) [] =
  observe (_handle (_handle session answering_handlers) console_handlers) [].
Proof.
  apply (handling_commutes console_handlers answering_handlers session).
  - intros [e c p]. unfold lookup_handler, own_entry. simpl.
    destruct (decide (e = "Console")) as [->|Hne].
    + right. reflexivity.
    + left. rewrite lookup_singleton_ne by congruence. reflexivity.
  - intros [e c p] f ps. unfold lookup_handler, own_entry, console_handlers. simpl.
    table_cases; try discriminate; intros [= <-]; repeat constructor.
  - intros [e c p] f ps. unfold lookup_handler, own_entry, answering_handlers. simpl.
    table_cases; try discriminate; intros [= <-]; repeat constructor.
  - intros [e c p] f ps. unfold lookup_handler, own_entry, console_handlers. simpl.
    table_cases; try discriminate; intros [= <-]; constructor.
  - intros [e c p] f ps. unfold lookup_handler, own_entry, answering_handlers. simpl.
    table_cases; try discriminate; intros [= <-]; constructor.
Defined.

Lemma run_handler_resume handlers action computation r abortedValue v :
  tactic_calls r = [call_resume v] ->
  maybeComputation r = None ->
  run_handler handlers action computation r abortedValue =
  _handle_loop handlers (computation v) true false abortedValue.
Proof.
  intros Hcalls Hnone. unfold run_handler. rewrite Hcalls, Hnone. simpl.
  unfold resume. simpl.
  destruct (computation v) eqn:E; simpl; rewrite ?E; reflexivity.
Qed.

Lemma run_handler_abort handlers action computation r abortedValue v :
  tactic_calls r = [call_abort v] ->
  maybeComputation r = None ->
  run_handler handlers action computation r abortedValue = Return v.
Proof.
  intros Hcalls Hnone. unfold run_handler. rewrite Hcalls, Hnone.
  reflexivity.
Qed.

(** X9.  Direct handlers discharge a computation.  When every Action of
    the computation has an entry (and a parameter list where the entry is
    a function), and every handler function calls one tactic and returns
    nothing to drive, the handled computation never suspends and raises
    no error of the loop: it completes, or it raises an exception that
    the computation itself raises. *)
Theorem direct_handlers_discharge handlers c :
  direct handlers ->
  dischargeable handlers c ->
  (exists result, _handle c handlers = Return result) \/
  (exists e, _handle c handlers = Throw e /\ may_raise c e).
Proof.
  intros Hd Hc. unfold _handle. generalize VUndefined as av.
  induction Hc as [r|e|a k Hsome Hps _ IH]; intros av.
  - left. exists r. reflexivity.
  - right. exists e. split; [reflexivity | constructor].
  - assert (forall v av', 
      (exists result, _handle_loop handlers (k v) true false av' =
                      Return result) \/
      (exists e, _handle_loop handlers (k v) true false av' = Throw e /\
                 may_raise (Yield a k) e)) as IH'.
    { intros v av'. destruct (IH v av') as [[r Hr]|[e [He Hm]]].
      - left. eauto.
      - right. exists e. split; [exact He|]. econstructor. exact Hm. }
    destruct (lookup_handler handlers a) as [[v|f]|] eqn:El;
      [| |congruence].
    + rewrite (_handle_loop_value _ _ _ _ v) by exact El. apply IH'.
    + destruct (parameters a) as [ps|] eqn:Eps;
        [|exfalso; exact (Hps f eq_refl eq_refl)].
      rewrite (_handle_loop_function _ _ _ _ f ps) by assumption.
      destruct (Hd a f ps El) as [Hnone [t Hcalls]].
      destruct t as [v|v].
      * rewrite (run_handler_resume _ _ _ _ _ v) by assumption. apply IH'.
      * rewrite (run_handler_abort _ _ _ _ _ v) by assumption.
        left. exists v. reflexivity.
Qed.

Lemma direct_handlers_discharge_witness :
  (exists result, _handle echo console_handlers = Return result) \/
  (exists e, _handle echo console_handlers = Throw e /\ may_raise echo e).
Proof.
  apply (direct_handlers_discharge console_handlers echo).
  - intros [e c p] f ps. unfold lookup_handler, own_entry, console_handlers. simpl.
    table_cases; try discriminate; intros [= <-]; simpl; eauto.
  - constructor; [discriminate | discriminate |]. intros x.
    constructor; [discriminate | discriminate |]. intros y. constructor.
Defined.

(** States that are alike lead a handler to the same behaviour. *)
Lemma yield_star_alike handlers action (k : Generator) :
  (forall v av1 av2,
     equiv (_handle_loop handlers (k v) true false av1)
           (_handle_loop handlers (k v) true false av2)) ->
  forall s st st', consistent st -> alike st st' ->
  equiv (yield_star action k s st (back_to_loop handlers action k))
        (yield_star action k s st' (back_to_loop handlers action k)).
Proof.
  intros H s.
  induction s as [r|e|a kk IH|t kk IH]; intros st st' Hc Ha.
  - destruct st as [r1 i1 a1 v1], st' as [r2 i2 a2 v2].
    destruct Ha as (Hr & Hi & Hab & Hv). simpl in *. subst r2 i2 a2.
    unfold consistent in Hc. simpl in Hc.
    destruct r1 as [w|].
    + destruct Hc as [-> ->]. apply H.
    + subst a1. unfold after_loop. simpl.
      destruct i1; simpl; [rewrite Hv by reflexivity|]; apply equiv_refl.
  - constructor.
  - simpl. constructor. intros x. apply IH; assumption.
  - pose proof (invoke_alike action k t st st' Ha) as Hinv.
    pose proof (invoke_consistent action k t st) as Hcons.
    simpl yield_star.
    destruct (invoke action k t st) as [e|st1],
             (invoke action k t st') as [e'|st1'];
      try contradiction.
    + subst e'. constructor.
    + apply IH; [eapply Hcons; eauto | exact Hinv].
Qed.

Lemma _handle_loop_abortedValue handlers c : forall av1 av2,
  equiv (_handle_loop handlers c true false av1)
        (_handle_loop handlers c true false av2).
Proof.
  induction c as [r|e|a k IH]; intros av1 av2.
  - constructor.
  - constructor.
  - destruct (lookup_handler handlers a) as [[v|f]|] eqn:El.
    + rewrite !(_handle_loop_value _ _ _ _ v) by exact El. apply IH.
    + destruct (parameters a) as [ps|] eqn:Eps.
      * rewrite !(_handle_loop_function _ _ _ _ f ps) by assumption.
        rewrite !run_handler_script. apply yield_star_alike.
        -- intros v. apply IH.
        -- reflexivity.
        -- repeat split; discriminate.
      * rewrite !(_handle_loop_spread _ _ _ _ f) by assumption. constructor.
    + rewrite !_handle_loop_no_entry by exact El. constructor.
      intros x. apply IH.
Qed.

(** X10.  The value of [abortedValue] matters only after [abort] has set
    it: as long as no handler has aborted, what the loop does from its
    head on is the same whatever the variable holds, so the unset
    variable is never what the handled computation returns. *)
Theorem abortedValue_only_after_abort handlers c av1 av2 answers :
  observe (_handle_loop handlers c true false av1) answers =
  observe (_handle_loop handlers c true false av2) answers.
Proof. apply equiv_observe, _handle_loop_abortedValue. Qed.

(** X11.  The Actions performed by a handler's generator bypass the
    table: whether or not the table has an entry for the Action the
    generator yields first -- be it the entry being run -- the handled
    computation suspends with that Action. *)
Theorem handler_body_actions_bypass_table handlers action computation
    abortedValue f ps performed k :
  lookup_handler handlers action = Some (EFunction f) ->
  parameters action = Some ps ->
  tactic_calls (f ps) = [] ->
  maybeComputation (f ps) = Some (NYield performed k) ->
  forall x,
  fst (next (fresh (_handle_loop handlers (Yield action computation)
                      true false abortedValue)) x) =
  inr (suspended performed).
Proof.
  intros Hf Hps Hcalls Hn x. unfold next, fresh.
  rewrite (_handle_loop_function _ _ _ _ f ps) by assumption.
  unfold run_handler. rewrite Hcalls, Hn. reflexivity.
Qed.

Lemma handler_body_actions_bypass_table_witness :
  lookup_handler recursing_handlers Console_readLine =
    Some (EFunction recursing) /\
  fst (next (fresh (_handle read recursing_handlers)) VUndefined) =
    inr (suspended Console_readLine).
Proof.
  split; [reflexivity|].
  exact (handler_body_actions_bypass_table recursing_handlers
           Console_readLine (fun x => Return x) VUndefined recursing []
           Console_readLine
           (fun x => NTactic (call_resume x) (NReturn VUndefined))
           eq_refl eq_refl eq_refl eq_refl VUndefined).
Defined.

(** X12.  The inner handling takes precedence.  Handling with [A] and
    then with [B] is observably the same as handling once with a table
    that finds for every Action what [A] finds, or else what [B] finds
    -- whether or not the keys are disjoint and whatever Actions the
    computation performs -- provided that the handler functions found in
    [A] perform no Action for which [B] finds an entry and those found in
    [B] do nothing more once they have called [resume]. *)
Theorem inner_table_takes_precedence A B U c :
  union_of U A B ->
  performs_outside A B ->
  resumes_last B ->
  forall answers,
  observe (_handle (_handle c A) B) answers =
  observe (_handle c U) answers.
Proof.
  intros HU HA HB. apply equiv_observe. apply (handle_twice A B U); assumption.
Qed.

Lemma inner_table_takes_precedence_witness :
  observe (_handle (_handle (iterator (Console "width")) width_handlers)
             wide_handlers) [] =
  observe (_handle (iterator (Console "width"))
             (merge width_handlers wide_handlers)) [].
Proof.
  apply (inner_table_takes_precedence width_handlers wide_handlers
           (merge width_handlers wide_handlers)
           (iterator (Console "width"))).
  - apply union_of_merge; intros e c; reflexivity.
  - intros [e c p] f ps. unfold lookup_handler, own_entry, width_handlers.
    simpl. table_cases; discriminate.
  - intros [e c p] f ps. unfold lookup_handler, own_entry, wide_handlers.
    simpl. table_cases; discriminate.
Defined.

(** The entry of the inner table is the one that answers. *)
Example inner_entry_answers :
  observe (_handle (_handle (iterator (Console "width")) width_handlers)
             wide_handlers) [] = ([], Completed (VNumber 80)).
Proof. reflexivity. Qed.

(** ** Handling a sequence *)

Lemma bind_Throw_inv c k e :
  c = Throw e -> bind c k = Throw e.
Proof. intros ->. reflexivity. Qed.

(** A resumptive handler run against a computation followed by [k] and
    against the computation alone. *)
Lemma resumptive_bind handlers action (kk : Generator)
    (k : value -> Effectful) av0 :
  (forall v av,
     equiv (_handle_loop handlers (bind (kk v) k) true false av)
           (bind (_handle_loop handlers (kk v) true false av)
              (fun r => _handle_loop handlers (k r) true false av0))) ->
  forall s, resumptive s ->
  forall st, isPreviousEffectResolved st = false -> aborted st = false ->
  resumed st = None ->
  equiv (yield_star action (fun x => bind (kk x) k) s st
           (back_to_loop handlers action (fun x => bind (kk x) k)))
        (bind (yield_star action kk s st
                 (back_to_loop handlers action kk))
           (fun r => _handle_loop handlers (k r) true false av0)).
Proof.
  intros H s Hs.
  induction Hs as [r|e|a k' _ IH|v r]; intros st Hi Hab Hr.
  - destruct st as [r1 i1 a1 v1]. simpl in *. subst. constructor.
  - constructor.
  - simpl. constructor. intros x. apply IH; assumption.
  - rewrite !resume_then_return by assumption. rewrite Hab. apply H.
Qed.

(** X13.  Handling distributes over sequencing.  When the handler
    functions of the table never abort and return right after they have
    resumed, handling a computation followed by a continuation is
    observably the same as handling the computation and then handling
    the continuation on its result. *)
Theorem handling_a_sequence handlers c (k : value -> Effectful) :
  resumptive_handlers handlers ->
  forall answers,
  observe (_handle (bind c k) handlers) answers =
  observe (bind (_handle c handlers) (fun r => _handle (k r) handlers))
    answers.
Proof.
  intros Hres. apply equiv_observe. unfold _handle.
  generalize VUndefined at 1 2 as av. generalize VUndefined as av0.
  intros av0. induction c as [r|e|a kk IH]; intros av.
  - simpl. apply _handle_loop_abortedValue.
  - constructor.
  - change (bind (Yield a kk) k) with (Yield a (fun x => bind (kk x) k)).
    destruct (lookup_handler handlers a) as [[v|f]|] eqn:El.
    + rewrite !(_handle_loop_value _ _ _ _ v) by exact El. apply IH.
    + destruct (parameters a) as [ps|] eqn:Eps.
      * rewrite !(_handle_loop_function _ _ _ _ f ps) by assumption.
        rewrite !run_handler_script.
        apply resumptive_bind; try reflexivity.
        -- intros v av'. apply IH.
        -- eapply Hres, El.
      * rewrite !(_handle_loop_spread _ _ _ _ f) by assumption. constructor.
    + rewrite !_handle_loop_no_entry by exact El. simpl. constructor.
      intros x. apply IH.
Qed.

Lemma handling_a_sequence_witness :
  observe (_handle (bind (call (Console "readLine") [])
                      (fun line => call (State "get") [line]))
             console_handlers) [VNumber 3] =
  observe (bind (_handle (call (Console "readLine") []) console_handlers)
             (fun line => _handle (call (State "get") [line])
                            console_handlers)) [VNumber 3].
Proof.
  apply (handling_a_sequence console_handlers
           (call (Console "readLine") [])
           (fun line => call (State "get") [line])).
  intros [e c p] f ps. unfold lookup_handler, own_entry, console_handlers. simpl.
  table_cases; try discriminate; intros [= <-]; constructor.
Defined.

(** ** The message of a HandleError *)

(** The message is trimmed as a whole: white space at the end of the
    reason is lost, and so is the line break before an empty reason. *)
Example message_is_trimmed :
  HandleError_message "Console" "log" "x " =
    HandleError_message "Console" "log" "x" /\
  HandleError_message "Console" "log" "" = "Fail to handle action 'Console.log'".
Proof. split; reflexivity. Qed.
